(** * core-js-101, [src/05-objects-tasks.js]: objects tasks

    A shallow embedding of [Rectangle] and of [cssSelectorBuilder] with
    its method table [methodsMap], and the properties the specification
    states about them.  ([getJSON] and [fromJSON] only forward to the
    runtime's [JSON] and [Object] built-ins and have no code of their own
    to embed.)

    Conventions.
    - A JavaScript object whose properties are created on the fly (the
      selector builder) is a finite map from property names to values,
      [gmap string string]; [hasOwnProperty] is membership in that map.
    - A method that reads and assigns [this] and may [throw] is a function
      in the monad [M]: it takes the receiver and returns the outcome
      together with the receiver as the call left it.
    - Builders are shared, mutable objects: the program level keeps them
      in a store and passes references around.
    - Selector tokens are strings. *)

From stdpp Require Import gmap strings list fin_maps.

(** ** Strings *)

(** Concatenation of a list of fragments, left to right. *)
Definition join (l : list string) : string := foldr String.append "" l.

(** ** [Rectangle] *)

Section Rectangle.
(** JavaScript numbers and their [*]. *)
Context {number : Type}.
Variable times : number → number → number.

(** The object literal [{ width, height, getArea() {...} }]: two data
    fields, and a method that reads them through [this]. *)
Record rectangle : Type := { width : number; height : number }.

Definition Rectangle (width height : number) : rectangle :=
  {| width := width; height := height |}.

Definition getArea (this : rectangle) : number :=
  times (width this) (height this).

(** Assignments [r.width = w] and [r.height = h]. *)
Definition set_width (w : number) (r : rectangle) : rectangle :=
  {| width := w; height := height r |}.

Definition set_height (h : number) (r : rectangle) : rectangle :=
  {| width := width r; height := h |}.
End Rectangle.

Arguments rectangle : clear implicits.

(** ** Css selectors builder *)

(** The two [Error] objects of the module: [myError] is thrown when
    element, id or pseudo-element occurs twice (the specification's
    DuplicateCategoryError), [myError2] when the parts are out of order
    (OutOfOrderError). *)
Inductive Error : Type := myError | myError2.

#[global] Instance Error_eq_dec : EqDecision Error.
Proof. solve_decision. Defined.

(** A builder's data properties ([_element], [_id], ...).  The six
    closures the constructor installs live under the names [element],
    [id], [attr], [class], [pseudoClass], [pseudoElement]; no check and no
    read below ever names one of those, so they are left out of the map. *)
Abbreviation object := (gmap string string).

(** Methods on a receiver: outcome and the receiver afterwards. *)
Definition M (A : Type) : Type := object → (Error + A) * object.

#[global] Instance M_ret : MRet M := λ A a this, (inr a, this).
#[global] Instance M_bind : MBind M := λ A B f m this,
  match m this with
  | (inl e, this') => (inl e, this')
  | (inr a, this') => f a this'
  end.

Definition throw {A : Type} (e : Error) : M A := λ this, (inl e, this).

(** [this.hasOwnProperty(key)] *)
Definition hasOwnProperty (obj : object) (key : string) : bool :=
  bool_decide (is_Some (obj !! key)).

Definition this_hasOwnProperty (key : string) : M bool :=
  λ this, (inr (hasOwnProperty this key), this).

(** [this[key]]: [None] is [undefined]. *)
Definition this_get (key : string) : M (option string) :=
  λ this, (inr (this !! key), this).

(** [this[key] = value] *)
Definition this_set (key value : string) : M unit :=
  λ this, (inr tt, <[key := value]> this).

Definition this_obj : M object := λ this, (inr this, this).

(** Truthiness of a property read: [undefined] and [''] are falsy. *)
Definition truthy (v : option string) : bool :=
  match v with
  | Some s => negb (bool_decide (s = ""))
  | None => false
  end.

(** [${v}] inside a template literal. *)
Definition interpolate (v : option string) : string := default "undefined" v.

(** [v || '']: the value itself when it is truthy. *)
Definition or_empty (v : option string) : string :=
  match v with
  | Some s => if truthy v then s else ""
  | None => ""
  end.

(** [if (props.some((el) => obj.hasOwnProperty(el))) throw myError2;] *)
Definition checkProps (obj : object) (props : list string) : M unit :=
  if existsb (λ el, hasOwnProperty obj el) props then throw myError2 else mret tt.

Module methodsMap.

Definition element (value : string) : M unit :=
  own ← this_hasOwnProperty "_element";
  (if own : bool then throw myError else mret tt);;
  this ← this_obj;
  checkProps this ["_id"; "_class"; "_attr"; "_pseudoClass"; "_pseudoElement"];;
  this_set "_element" value.

Definition id (value : string) : M unit :=
  own ← this_hasOwnProperty "_id";
  (if own : bool then throw myError else mret tt);;
  this ← this_obj;
  checkProps this ["_class"; "_attr"; "_pseudoClass"; "_pseudoElement"];;
  this_set "_id" ("#" +:+ value).

Definition attr (value : string) : M unit :=
  this ← this_obj;
  checkProps this ["_pseudoClass"; "_pseudo-element"];;
  old ← this_get "_attr";
  this_set "_attr"
    (if truthy old then interpolate old +:+ "[" +:+ value +:+ "]"
     else "[" +:+ value +:+ "]").

Definition class (value : string) : M unit :=
  this ← this_obj;
  checkProps this ["_attr"; "_pseudoClass"; "_pseudoElement"];;
  old ← this_get "_class";
  this_set "_class"
    (if truthy old then interpolate old +:+ "." +:+ value
     else "." +:+ value).

Definition pseudoClass (value : string) : M unit :=
  this ← this_obj;
  checkProps this ["_pseudoElement"];;
  old ← this_get "_pseudoClass";
  this_set "_pseudoClass"
    (if truthy old then interpolate old +:+ ":" +:+ value
     else ":" +:+ value).

Definition pseudoElement (value : string) : M unit :=
  own ← this_hasOwnProperty "_pseudoElement";
  (if own : bool then throw myError else mret tt);;
  this_set "_pseudoElement" ("::" +:+ value).

End methodsMap.

(** The keys of [methodsMap], in the order of the object literal. *)
Inductive methodKey : Type :=
  | Kelement | Kid | Kattr | Kclass | KpseudoClass | KpseudoElement.

#[global] Instance methodKey_eq_dec : EqDecision methodKey.
Proof. solve_decision. Defined.

(** [methodsMap[methodKey].call(this, value)] *)
Definition call (methodKey : methodKey) (value : string) : M unit :=
  match methodKey with
  | Kelement => methodsMap.element value
  | Kid => methodsMap.id value
  | Kattr => methodsMap.attr value
  | Kclass => methodsMap.class value
  | KpseudoClass => methodsMap.pseudoClass value
  | KpseudoElement => methodsMap.pseudoElement value
  end.

(** [stringify()] of the class. *)
Definition stringify (this : object) : string :=
  let str := or_empty (this !! "_element") in
  let str := str +:+ or_empty (this !! "_id") in
  let str := str +:+ or_empty (this !! "_class") in
  let str := str +:+ or_empty (this !! "_attr") in
  let str := str +:+ or_empty (this !! "_pseudoClass") in
  let str := str +:+ or_empty (this !! "_pseudoElement") in
  str.


(** The setter an instance carries under each key,
    [(value) => { methodsMap[methodKey].call(this, value); return this; }],
    returns its receiver, so a chain [b.k1(v1).k2(v2)...] runs the methods
    one after the other on the same object and stops at the first throw. *)
Fixpoint chain (calls : list (methodKey * string)) : M unit :=
  match calls with
  | [] => mret tt
  | (methodKey, value) :: calls => call methodKey value;; chain calls
  end.

(** The states of a builder: a new instance has no data property, and
    from then on the object changes through calls of its setters only.  The
    index lists the calls that returned; a call that throws leaves the
    object as the method left it and is not listed. *)
Inductive built : list (methodKey * string) → object → Prop :=
  | built_new : built [] ∅
  | built_return calls this k v this' :
      built calls this →
      call k v this = (inr tt, this') →
      built (calls ++ [(k, v)]) this'
  | built_throw calls this k v e this' :
      built calls this →
      call k v this = (inl e, this') →
      built calls this'.

(** ** Builders in the store *)

(** Objects created so far; a reference is an index. *)
Abbreviation store := (list object).

(** Programs over the store. *)
Definition P (A : Type) : Type := store → (Error + A) * store.

#[global] Instance P_ret : MRet P := λ A a σ, (inr a, σ).
#[global] Instance P_bind : MBind P := λ A B f m σ,
  match m σ with
  | (inl e, σ') => (inl e, σ')
  | (inr a, σ') => f a σ'
  end.

(** [new cssSelectorBuilder()]: the constructor adds the six closures and
    no data property. *)
Definition new_cssSelectorBuilder : P nat :=
  λ σ, (inr (length σ), σ ++ [∅]).

(** [this[methodKey](value)] on the instance at [this]: the object is
    updated in place, whatever the outcome, and the reference returned. *)
Definition invoke (this : nat) (methodKey : methodKey) (value : string) : P nat :=
  λ σ, match call methodKey value (σ !!! this) with
       | (inl e, obj) => (inl e, <[this := obj]> σ)
       | (inr _, obj) => (inr this, <[this := obj]> σ)
       end.

(** The static entry point
    [cssSelectorBuilder[methodKey] = (value) => new cssSelectorBuilder()[methodKey](value)]. *)
Definition static (methodKey : methodKey) (value : string) : P nat :=
  this ← new_cssSelectorBuilder; invoke this methodKey value.

(** What [combine] accepts and returns: anything with a [stringify]
    method, that is an instance of the class (held by reference) or the
    object literal built by [combine], whose closure keeps the three
    arguments. *)
Inductive selector : Type :=
  | Builder (this : nat)
  | Combined (selector1 : selector) (combinator : string) (selector2 : selector).

(** [s.stringify()], evaluated in the store of the moment of the call. *)
Fixpoint render (σ : store) (s : selector) : string :=
  match s with
  | Builder this => stringify (σ !!! this)
  | Combined selector1 combinator selector2 =>
      render σ selector1 +:+ " " +:+ combinator +:+ " " +:+ render σ selector2
  end.

Definition combine (selector1 : selector) (combinator : string)
    (selector2 : selector) : P selector :=
  mret (Combined selector1 combinator selector2).

(** A program that builds a selector in an empty store, followed by
    [.stringify()] on its result. *)
Definition stringify_of (p : P selector) : Error + string :=
  match p [] with
  | (inl e, _) => inl e
  | (inr s, σ) => inr (render σ s)
  end.

(** ** The specification's data model *)

(** The [Selector] entity of the specification: three single-occurrence
    tokens and three ordered sequences of tokens. *)
Record Selector : Type := {
  s_element : option string;
  s_id : option string;
  s_classes : list string;
  s_attributes : list string;
  s_pseudoClasses : list string;
  s_pseudoElement : option string;
}.

Definition empty_Selector : Selector :=
  {| s_element := None; s_id := None; s_classes := []; s_attributes := [];
     s_pseudoClasses := []; s_pseudoElement := None |}.

(** What each setter records, in the specification's words: [element],
    [id] and [pseudoElement] set their field, the other three append. *)
Definition record (methodKey : methodKey) (token : string) (s : Selector) : Selector :=
  match methodKey with
  | Kelement =>
      {| s_element := Some token; s_id := s_id s; s_classes := s_classes s;
         s_attributes := s_attributes s; s_pseudoClasses := s_pseudoClasses s;
         s_pseudoElement := s_pseudoElement s |}
  | Kid =>
      {| s_element := s_element s; s_id := Some token; s_classes := s_classes s;
         s_attributes := s_attributes s; s_pseudoClasses := s_pseudoClasses s;
         s_pseudoElement := s_pseudoElement s |}
  | Kclass =>
      {| s_element := s_element s; s_id := s_id s;
         s_classes := s_classes s ++ [token];
         s_attributes := s_attributes s; s_pseudoClasses := s_pseudoClasses s;
         s_pseudoElement := s_pseudoElement s |}
  | Kattr =>
      {| s_element := s_element s; s_id := s_id s; s_classes := s_classes s;
         s_attributes := s_attributes s ++ [token];
         s_pseudoClasses := s_pseudoClasses s;
         s_pseudoElement := s_pseudoElement s |}
  | KpseudoClass =>
      {| s_element := s_element s; s_id := s_id s; s_classes := s_classes s;
         s_attributes := s_attributes s;
         s_pseudoClasses := s_pseudoClasses s ++ [token];
         s_pseudoElement := s_pseudoElement s |}
  | KpseudoElement =>
      {| s_element := s_element s; s_id := s_id s; s_classes := s_classes s;
         s_attributes := s_attributes s; s_pseudoClasses := s_pseudoClasses s;
         s_pseudoElement := Some token |}
  end.

(** The selector a sequence of accepted calls describes. *)
Definition selector_of (calls : list (methodKey * string)) : Selector :=
  foldl (λ s c, record c.1 c.2 s) empty_Selector calls.

(** The rendering the specification asks of [stringify]: element, id,
    classes, attributes, pseudo-classes, pseudo-element, each present
    piece with its prefix, nothing in between. *)
Definition spec_stringify (s : Selector) : string :=
  from_option (λ t, t) "" (s_element s)
  +:+ from_option (λ t, "#" +:+ t) "" (s_id s)
  +:+ join ((λ t, "." +:+ t) <$> s_classes s)
  +:+ join ((λ t, "[" +:+ t +:+ "]") <$> s_attributes s)
  +:+ join ((λ t, ":" +:+ t) <$> s_pseudoClasses s)
  +:+ from_option (λ t, "::" +:+ t) "" (s_pseudoElement s).

(** The text one accepted call contributes. *)
Definition fragment (methodKey : methodKey) (token : string) : string :=
  match methodKey with
  | Kelement => token
  | Kid => "#" +:+ token
  | Kclass => "." +:+ token
  | Kattr => "[" +:+ token +:+ "]"
  | KpseudoClass => ":" +:+ token
  | KpseudoElement => "::" +:+ token
  end.

(** The fragments of one category, in the order of the calls. *)
Definition fragments (k : methodKey) (calls : list (methodKey * string)) : list string :=
  (λ c, fragment c.1 c.2) <$> filter (λ c, c.1 = k) calls.

(** The categories by rank. *)
Definition rank_order : list methodKey :=
  [Kelement; Kid; Kclass; Kattr; KpseudoClass; KpseudoElement].

(** All fragments of a sequence of calls, category after category. *)
Definition grouped (calls : list (methodKey * string)) : string :=
  join ((λ k, join (fragments k calls)) <$> rank_order).

(** The data property a setter writes. *)
Definition property (methodKey : methodKey) : string :=
  match methodKey with
  | Kelement => "_element"
  | Kid => "_id"
  | Kclass => "_class"
  | Kattr => "_attr"
  | KpseudoClass => "_pseudoClass"
  | KpseudoElement => "_pseudoElement"
  end.

(** A property that is absent, or holds the fragments written so far. *)
Definition written (l : list string) : option string :=
  match l with
  | [] => None
  | _ :: _ => Some (join l)
  end.

(** Each data property is absent when no call of its category was made,
    and otherwise holds the fragments of those calls, in call order. *)
Definition holds (calls : list (methodKey * string)) (this : object) : Prop :=
  ∀ k, this !! property k = written (fragments k calls).

(** The tokens a [Selector] holds in one category. *)
Definition tokens (k : methodKey) (s : Selector) : list string :=
  match k with
  | Kelement => option_list (s_element s)
  | Kid => option_list (s_id s)
  | Kclass => s_classes s
  | Kattr => s_attributes s
  | KpseudoClass => s_pseudoClasses s
  | KpseudoElement => option_list (s_pseudoElement s)
  end.

(** The selector lists, category by category, the tokens of the calls. *)
Definition agrees (calls : list (methodKey * string)) (s : Selector) : Prop :=
  ∀ k, fragments k calls = fragment k <$> tokens k s.

(** ** The order of the parts *)

(** The place of a category in the order the message of [myError2] names:
    element, id, class, attribute, pseudo-class, pseudo-element. *)
Definition rank (k : methodKey) : nat :=
  match k with
  | Kelement => 0
  | Kid => 1
  | Kclass => 2
  | Kattr => 3
  | KpseudoClass => 4
  | KpseudoElement => 5
  end.

(** The categories that may occur several times. *)
Definition repeatable (k : methodKey) : bool :=
  match k with
  | Kclass | Kattr | KpseudoClass => true
  | Kelement | Kid | KpseudoElement => false
  end.

(** [k'] comes before [k] in the order, or is the same repeatable
    category. *)
Definition below (k' k : methodKey) : bool :=
  (rank k' <? rank k) || (bool_decide (k' = k) && repeatable k).

(** Whether a call of [k] is still accepted once [k'] has been called:
    [k'] is below [k]; and an attribute after a pseudo-element. *)
Definition may_follow (k' k : methodKey) : bool :=
  below k' k || (bool_decide (k' = KpseudoElement) && bool_decide (k = Kattr)).

(** The outcome of a call of [k] on a builder on which the categories
    [seen] have been set. *)
Definition verdict (seen : list methodKey) (k : methodKey) : Error + unit :=
  if negb (repeatable k) && bool_decide (k ∈ seen) then inl myError
  else if forallb (λ k', may_follow k' k) seen then inr tt
  else inl myError2.

(** Every call may follow all the calls before it. *)
Fixpoint in_order (seen keys : list methodKey) : bool :=
  match keys with
  | [] => true
  | k :: keys => forallb (λ k', may_follow k' k) seen && in_order (k :: seen) keys
  end.

(** Some [attr] call comes after a [pseudoElement] call. *)
Fixpoint attr_after_pseudoElement (keys : list methodKey) : bool :=
  match keys with
  | [] => false
  | k :: keys =>
      (bool_decide (k = KpseudoElement) && bool_decide (Kattr ∈ keys))
      || attr_after_pseudoElement keys
  end.

(** Each call is of a later category than the one before it, or repeats
    a repeatable category. *)
Fixpoint ascending (keys : list methodKey) : bool :=
  match keys with
  | [] => true
  | k' :: keys =>
      match keys with
      | [] => true
      | k :: _ => below k' k && ascending keys
      end
  end.

(** The builders a selector is made of. *)
Fixpoint builders (s : selector) : list nat :=
  match s with
  | Builder this => [this]
  | Combined selector1 _ selector2 => builders selector1 ++ builders selector2
  end.

(** ** Strings: lemmas *)

Lemma append_cons (a : Ascii.ascii) (s t : string) :
  String a s +:+ t = String a (s +:+ t).
Proof. reflexivity. Qed.

Lemma append_empty_l (s : string) : "" +:+ s = s.
Proof. reflexivity. Qed.

Lemma append_empty_r (s : string) : s +:+ "" = s.
Proof.
  induction s as [|a s IH]; [reflexivity|].
  by rewrite append_cons, IH.
Qed.

Lemma append_assoc (s t u : string) : (s +:+ t) +:+ u = s +:+ t +:+ u.
Proof.
  induction s as [|a s IH]; [reflexivity|].
  by rewrite !append_cons, IH.
Qed.

Lemma join_nil : join [] = "".
Proof. reflexivity. Qed.

Lemma join_cons (x : string) (l : list string) : join (x :: l) = x +:+ join l.
Proof. reflexivity. Qed.

Lemma join_singleton (x : string) : join [x] = x.
Proof. unfold join; simpl. apply append_empty_r. Qed.

Lemma join_app (l1 l2 : list string) : join (l1 ++ l2) = join l1 +:+ join l2.
Proof.
  induction l1 as [|x l1 IH]; [reflexivity|].
  by rewrite <- app_comm_cons, !join_cons, IH, append_assoc.
Qed.

Lemma join_snoc (l : list string) (x : string) : join (l ++ [x]) = join l +:+ x.
Proof. by rewrite join_app, join_singleton. Qed.

Example stringify_sample :
  stringify (snd (chain [(Kelement, "a"); (Kattr, "href"); (KpseudoClass, "focus")] ∅))
  = "a[href]:focus".
Proof. vm_compute. reflexivity. Qed.

(** ** The methods as case analyses *)

Ltac run_method :=
  unfold methodsMap.element, methodsMap.id, methodsMap.attr, methodsMap.class,
    methodsMap.pseudoClass, methodsMap.pseudoElement, checkProps,
    this_hasOwnProperty, this_obj, this_get, this_set, throw,
    mbind, mret, M_bind, M_ret;
  repeat match goal with
  | |- context [if ?b then _ else _] => destruct b eqn:?
  end; try reflexivity.

Lemma element_eq (value : string) (this : object) :
  methodsMap.element value this =
    if hasOwnProperty this "_element" then (inl myError, this)
    else if existsb (hasOwnProperty this)
              ["_id"; "_class"; "_attr"; "_pseudoClass"; "_pseudoElement"]
    then (inl myError2, this)
    else (inr tt, <["_element" := value]> this).
Proof. run_method. Qed.

Lemma id_eq (value : string) (this : object) :
  methodsMap.id value this =
    if hasOwnProperty this "_id" then (inl myError, this)
    else if existsb (hasOwnProperty this)
              ["_class"; "_attr"; "_pseudoClass"; "_pseudoElement"]
    then (inl myError2, this)
    else (inr tt, <["_id" := "#" +:+ value]> this).
Proof. run_method. Qed.

Lemma attr_eq (value : string) (this : object) :
  methodsMap.attr value this =
    if existsb (hasOwnProperty this) ["_pseudoClass"; "_pseudo-element"]
    then (inl myError2, this)
    else (inr tt,
          <["_attr" := if truthy (this !! "_attr")
                       then interpolate (this !! "_attr") +:+ "[" +:+ value +:+ "]"
                       else "[" +:+ value +:+ "]"]> this).
Proof. run_method. Qed.

Lemma class_eq (value : string) (this : object) :
  methodsMap.class value this =
    if existsb (hasOwnProperty this) ["_attr"; "_pseudoClass"; "_pseudoElement"]
    then (inl myError2, this)
    else (inr tt,
          <["_class" := if truthy (this !! "_class")
                        then interpolate (this !! "_class") +:+ "." +:+ value
                        else "." +:+ value]> this).
Proof. run_method. Qed.

Lemma pseudoClass_eq (value : string) (this : object) :
  methodsMap.pseudoClass value this =
    if existsb (hasOwnProperty this) ["_pseudoElement"]
    then (inl myError2, this)
    else (inr tt,
          <["_pseudoClass" := if truthy (this !! "_pseudoClass")
                              then interpolate (this !! "_pseudoClass") +:+ ":" +:+ value
                              else ":" +:+ value]> this).
Proof. run_method. Qed.

Lemma pseudoElement_eq (value : string) (this : object) :
  methodsMap.pseudoElement value this =
    if hasOwnProperty this "_pseudoElement" then (inl myError, this)
    else (inr tt, <["_pseudoElement" := "::" +:+ value]> this).
Proof. run_method. Qed.

Lemma hasOwnProperty_true (obj : object) (key : string) :
  hasOwnProperty obj key = true ↔ is_Some (obj !! key).
Proof. unfold hasOwnProperty. apply bool_decide_eq_true. Qed.

Lemma hasOwnProperty_false (obj : object) (key : string) :
  hasOwnProperty obj key = false ↔ obj !! key = None.
Proof.
  unfold hasOwnProperty. rewrite bool_decide_eq_false.
  by rewrite eq_None_not_Some.
Qed.

(** A chain, one call at a time. *)
Lemma chain_cons (k : methodKey) (v : string) (calls : list (methodKey * string))
    (this : object) :
  chain ((k, v) :: calls) this =
    match call k v this with
    | (inl e, this') => (inl e, this')
    | (inr _, this') => chain calls this'
    end.
Proof. reflexivity. Qed.

(** ** Fragments *)

Lemma fragments_nil (k : methodKey) : fragments k [] = [].
Proof. reflexivity. Qed.

Lemma fragments_snoc_eq (k : methodKey) (v : string) (calls : list (methodKey * string)) :
  fragments k (calls ++ [(k, v)]) = fragments k calls ++ [fragment k v].
Proof.
  unfold fragments. rewrite filter_app, fmap_app. f_equal.
  rewrite filter_cons_True by done. reflexivity.
Qed.

Lemma fragments_snoc_ne (k k' : methodKey) (v : string) (calls : list (methodKey * string)) :
  k' ≠ k → fragments k (calls ++ [(k', v)]) = fragments k calls.
Proof.
  intros Hne. unfold fragments. rewrite filter_app, fmap_app.
  rewrite filter_cons_False by done. simpl. apply app_nil_r.
Qed.

Lemma written_None (l : list string) : written l = None ↔ l = [].
Proof. destruct l; simpl; split; congruence. Qed.

Lemma or_empty_written (l : list string) : or_empty (written l) = join l.
Proof.
  destruct l as [|x l]; [reflexivity|].
  unfold written, or_empty, truthy.
  case_bool_decide as Hj; [by rewrite Hj | reflexivity].
Qed.

(** Fragments of the repeatable categories begin with their prefix, so a
    property that holds some of them is truthy. *)
Lemma truthy_written (k : methodKey) (calls : list (methodKey * string)) :
  k ∈ [Kclass; Kattr; KpseudoClass] →
  truthy (written (fragments k calls)) = bool_decide (fragments k calls ≠ []).
Proof.
  intros Hk. unfold fragments.
  induction calls as [|[k' v] calls IH]; [reflexivity|].
  destruct (decide (k' = k)) as [->|Hne].
  - rewrite filter_cons_True by done. rewrite fmap_cons.
    rewrite bool_decide_eq_true_2 by done.
    unfold written. rewrite join_cons.
    set_unfold in Hk. destruct Hk as [->|[->|[->|[]]]]; reflexivity.
  - rewrite filter_cons_False by done. exact IH.
Qed.

Lemma written_snoc (l : list string) (x : string) :
  written (l ++ [x]) = Some (join l +:+ x).
Proof.
  rewrite <- join_snoc. destruct l; reflexivity.
Qed.

Lemma interpolate_written (l : list string) :
  l ≠ [] → interpolate (written l) = join l.
Proof. destruct l; [done | reflexivity]. Qed.

Lemma property_inj : Inj (=) (=) property.
Proof. intros [] []; simpl; congruence. Qed.

(** ** The builder after a chain of accepted calls *)

Lemma holds_nil : holds [] ∅.
Proof. intros k. rewrite fragments_nil. apply lookup_empty. Qed.

Lemma holds_insert (k : methodKey) (v new : string)
    (calls : list (methodKey * string)) (this : object) :
  holds calls this →
  new = join (fragments k calls) +:+ fragment k v →
  holds (calls ++ [(k, v)]) (<[property k := new]> this).
Proof.
  intros Hinv -> k'. destruct (decide (k' = k)) as [->|Hne].
  - rewrite lookup_insert_eq, fragments_snoc_eq. symmetry. apply written_snoc.
  - rewrite lookup_insert_ne by (intros Heq; apply property_inj in Heq; done).
    rewrite fragments_snoc_ne by done. apply Hinv.
Qed.

(** The value a repeatable setter assigns. *)
Lemma appended (k : methodKey) (v : string)
    (calls : list (methodKey * string)) (this : object) (sep : string) :
  k ∈ [Kclass; Kattr; KpseudoClass] →
  holds calls this →
  fragment k v = sep →
  (if truthy (this !! property k)
   then interpolate (this !! property k) +:+ sep
   else sep) = join (fragments k calls) +:+ fragment k v.
Proof.
  intros Hk Hinv <-. rewrite (Hinv k), truthy_written by done.
  case_bool_decide as Hl.
  - by rewrite interpolate_written.
  - by rewrite Hl.
Qed.

(** The value a single-occurrence setter assigns, once its duplicate
    check has passed. *)
Lemma first_one (k : methodKey) (calls : list (methodKey * string)) (this : object) :
  holds calls this →
  hasOwnProperty this (property k) = false →
  fragments k calls = [].
Proof.
  intros Hinv Hown. apply written_None. rewrite <- (Hinv k).
  by apply hasOwnProperty_false.
Qed.

Lemma call_holds (k : methodKey) (v : string)
    (calls : list (methodKey * string)) (this this' : object) :
  holds calls this →
  call k v this = (inr tt, this') →
  holds (calls ++ [(k, v)]) this'.
Proof.
  intros Hinv. destruct k; simpl call.
  - rewrite element_eq.
    destruct (hasOwnProperty this "_element") eqn:Hown; [done|].
    destruct (existsb _ _); [done|]. intros [= <-].
    apply (holds_insert Kelement); [done|].
    by rewrite (first_one Kelement calls this).
  - rewrite id_eq.
    destruct (hasOwnProperty this "_id") eqn:Hown; [done|].
    destruct (existsb _ _); [done|]. intros [= <-].
    apply (holds_insert Kid); [done|].
    by rewrite (first_one Kid calls this).
  - rewrite attr_eq. destruct (existsb _ _); [done|]. intros [= <-].
    apply (holds_insert Kattr); [done|].
    apply (appended Kattr v calls this ("[" +:+ v +:+ "]")); [set_solver|done..].
  - rewrite class_eq. destruct (existsb _ _); [done|]. intros [= <-].
    apply (holds_insert Kclass); [done|].
    apply (appended Kclass v calls this ("." +:+ v)); [set_solver|done..].
  - rewrite pseudoClass_eq. destruct (existsb _ _); [done|]. intros [= <-].
    apply (holds_insert KpseudoClass); [done|].
    apply (appended KpseudoClass v calls this (":" +:+ v)); [set_solver|done..].
  - rewrite pseudoElement_eq.
    destruct (hasOwnProperty this "_pseudoElement") eqn:Hown; [done|].
    intros [= <-].
    apply (holds_insert KpseudoElement); [done|].
    by rewrite (first_one KpseudoElement calls this).
Qed.

(** A call that throws has assigned nothing. *)
Lemma call_throw (k : methodKey) (v : string) (e : Error) (this this' : object) :
  call k v this = (inl e, this') → this' = this.
Proof.
  destruct k; simpl call;
    rewrite ?element_eq, ?id_eq, ?attr_eq, ?class_eq, ?pseudoClass_eq,
      ?pseudoElement_eq;
    repeat match goal with
    | |- context [if ?b then _ else _] => destruct b
    end; congruence.
Qed.

Lemma built_holds (calls : list (methodKey * string)) (this : object) :
  built calls this → holds calls this.
Proof.
  induction 1 as [|calls this k v this' _ IH Hcall|calls this k v e this' _ IH Hcall].
  - apply holds_nil.
  - by apply (call_holds k v calls this).
  - by rewrite (call_throw k v e this this' Hcall).
Qed.

Lemma chain_built (calls done : list (methodKey * string)) (this this' : object) :
  built done this →
  chain calls this = (inr tt, this') →
  built (done ++ calls) this'.
Proof.
  revert done this. induction calls as [|[k v] calls IH]; intros done this Hb.
  - intros [= <-]. by rewrite app_nil_r.
  - rewrite chain_cons. destruct (call k v this) as [[e|[]] this1] eqn:Hcall; [done|].
    intros Hrest. rewrite cons_middle, app_assoc.
    apply (IH _ this1); [|done]. by apply (built_return done this).
Qed.

Lemma stringify_holds (calls : list (methodKey * string)) (this : object) :
  holds calls this → stringify this = grouped calls.
Proof.
  intros Hinv.
  assert (∀ k, join (fragments k calls) = or_empty (this !! property k)) as Hk.
  { intros k. rewrite (Hinv k). symmetry. apply or_empty_written. }
  unfold stringify, grouped, rank_order. simpl fmap.
  rewrite !join_cons, join_nil, append_empty_r, !Hk, !append_assoc.
  reflexivity.
Qed.

(** ** The specification's selector along a chain *)

Lemma agrees_nil : agrees [] empty_Selector.
Proof. by intros []. Qed.

Lemma tokens_record_ne (k k' : methodKey) (v : string) (s : Selector) :
  k' ≠ k → tokens k' (record k v s) = tokens k' s.
Proof. destruct k, k'; done. Qed.

Lemma tokens_record_eq (k : methodKey) (v : string) (s : Selector) :
  tokens k (record k v s) =
    if bool_decide (k ∈ [Kclass; Kattr; KpseudoClass]) then tokens k s ++ [v] else [v].
Proof. by destruct k. Qed.

Lemma call_fresh (k : methodKey) (v : string) (this this' : object) :
  k ∉ [Kclass; Kattr; KpseudoClass] →
  call k v this = (inr tt, this') →
  hasOwnProperty this (property k) = false.
Proof.
  intros Hk.
  destruct k; simpl call; simpl property; [| |destruct Hk; set_solver..|].
  - rewrite element_eq. by destruct (hasOwnProperty this "_element").
  - rewrite id_eq. by destruct (hasOwnProperty this "_id").
  - rewrite pseudoElement_eq. by destruct (hasOwnProperty this "_pseudoElement").
Qed.

Lemma call_agrees (k : methodKey) (v : string)
    (calls : list (methodKey * string)) (s : Selector) (this this' : object) :
  holds calls this → agrees calls s →
  call k v this = (inr tt, this') →
  agrees (calls ++ [(k, v)]) (record k v s).
Proof.
  intros Hinv Hs Hcall k'. destruct (decide (k' = k)) as [->|Hne].
  - rewrite fragments_snoc_eq, tokens_record_eq. case_bool_decide as Hk.
    + by rewrite fmap_app, <- (Hs k).
    + by rewrite (first_one k calls this Hinv (call_fresh k v this this' Hk Hcall)).
  - by rewrite fragments_snoc_ne, tokens_record_ne.
Qed.

Lemma selector_of_snoc (calls : list (methodKey * string)) (k : methodKey) (v : string) :
  selector_of (calls ++ [(k, v)]) = record k v (selector_of calls).
Proof. unfold selector_of. by rewrite foldl_app. Qed.

Lemma built_agrees (calls : list (methodKey * string)) (this : object) :
  built calls this → agrees calls (selector_of calls).
Proof.
  induction 1 as [|calls this k v this' Hb IH Hcall|]; [apply agrees_nil| |done].
  rewrite selector_of_snoc.
  apply (call_agrees k v calls _ this this'); [by apply built_holds|done..].
Qed.

Lemma spec_stringify_tokens (s : Selector) :
  spec_stringify s = join ((λ k, join (fragment k <$> tokens k s)) <$> rank_order).
Proof.
  unfold spec_stringify, rank_order. simpl fmap.
  rewrite !join_cons, join_nil, append_empty_r.
  unfold tokens.
  destruct (s_element s), (s_id s), (s_pseudoElement s); simpl from_option;
    simpl option_list; rewrite ?fmap_cons, ?fmap_nil, ?join_singleton, ?join_nil;
    reflexivity.
Qed.

Lemma agrees_grouped (calls : list (methodKey * string)) (s : Selector) :
  agrees calls s → spec_stringify s = grouped calls.
Proof.
  intros Hs. rewrite spec_stringify_tokens. unfold grouped.
  apply (f_equal join), list_fmap_ext. intros _ k _. by rewrite (Hs k).
Qed.

(** ** [stringify] *)

(** C2.  On every builder, [stringify()] returns element + id + classes +
    attributes + pseudo-classes + pseudo-element of the selector its
    accepted calls describe, each present piece with its prefix ([#] for
    id, [.] per class, [[...]] per attribute, [:] per pseudo-class, [::]
    for pseudo-element), absent pieces contributing the empty string and
    nothing between the categories; and
    [element('div').id('main').class('a').class('b').stringify()] is
    ['div#main.a.b']. *)
Theorem stringify_concatenates :
  (∀ calls this,
     built calls this → stringify this = spec_stringify (selector_of calls))
  ∧ stringify_of (b ← static Kelement "div";
                  b ← invoke b Kid "main";
                  b ← invoke b Kclass "a";
                  b ← invoke b Kclass "b";
                  mret (Builder b)) = inr "div#main.a.b".
Proof.
  split; [|vm_compute; reflexivity].
  intros calls this Hb.
  rewrite (agrees_grouped calls) by (by apply (built_agrees calls this)).
  by apply stringify_holds, built_holds.
Qed.

Lemma stringify_concatenates_witness :
  built [(Kid, "main"); (Kclass, "container"); (Kclass, "editable")]
    (<["_class" := ".container.editable"]> (<["_id" := "#main"]> ∅))
  ∧ stringify (<["_class" := ".container.editable"]> (<["_id" := "#main"]> ∅))
    = "#main.container.editable".
Proof.
  assert (built [(Kid, "main"); (Kclass, "container"); (Kclass, "editable")]
            (<["_class" := ".container.editable"]> (<["_id" := "#main"]> ∅))) as Hb.
  { apply (chain_built _ [] ∅); [apply built_new|]. vm_compute. reflexivity. }
  split; [exact Hb|].
  exact (proj1 stringify_concatenates _ _ Hb).
Defined.

(** C10.  When no call of a sequence of setter calls on one builder throws,
    [stringify()] renders the fragments category by category, in the order
    element, id, class, attribute, pseudo-class, pseudo-element, whatever
    the order of the calls: two accepted sequences with the same calls in
    each category render alike.  An [attr] call made after [pseudoElement]
    is accepted, and its [[token]] comes before the [::pseudoElement]. *)
Theorem stringify_groups_by_category :
  (∀ calls this,
     chain calls ∅ = (inr tt, this) → stringify this = grouped calls)
  ∧ (∀ calls1 calls2 this1 this2,
       chain calls1 ∅ = (inr tt, this1) →
       chain calls2 ∅ = (inr tt, this2) →
       (∀ k, fragments k calls1 = fragments k calls2) →
       stringify this1 = stringify this2)
  ∧ (∀ e a, ∃ this,
       chain [(KpseudoElement, e); (Kattr, a)] ∅ = (inr tt, this)
       ∧ stringify this = ("[" +:+ a +:+ "]") +:+ "::" +:+ e).
Proof.
  assert (∀ calls this,
    chain calls ∅ = (inr tt, this) → stringify this = grouped calls) as Hgrouped.
  { intros calls this Hchain. apply stringify_holds, built_holds.
    apply (chain_built calls [] ∅); [apply built_new|done]. }
  split; [exact Hgrouped|split].
  - intros calls1 calls2 this1 this2 H1 H2 Hsame.
    rewrite (Hgrouped calls1 this1 H1), (Hgrouped calls2 this2 H2).
    unfold grouped. apply (f_equal join), list_fmap_ext.
    intros _ k _. by rewrite Hsame.
  - intros e a.
    exists (<["_attr" := "[" +:+ a +:+ "]"]> (<["_pseudoElement" := "::" +:+ e]> ∅)).
    assert (chain [(KpseudoElement, e); (Kattr, a)] ∅ =
      (inr tt, <["_attr" := "[" +:+ a +:+ "]"]> (<["_pseudoElement" := "::" +:+ e]> ∅)))
      as Hchain by reflexivity.
    split; [exact Hchain|].
    rewrite (Hgrouped _ _ Hchain). unfold grouped, rank_order, fragments.
    simpl. rewrite !append_empty_l, !append_empty_r. reflexivity.
Qed.

Lemma stringify_groups_by_category_witness :
  chain [(Kelement, "a"); (Kclass, "x"); (KpseudoElement, "after"); (Kattr, "href")] ∅
    = (inr tt, <["_attr" := "[href]"]> (<["_pseudoElement" := "::after"]>
                 (<["_class" := ".x"]> (<["_element" := "a"]> ∅))))
  ∧ stringify (<["_attr" := "[href]"]> (<["_pseudoElement" := "::after"]>
                 (<["_class" := ".x"]> (<["_element" := "a"]> ∅))))
    = "a.x[href]::after".
Proof.
  assert (chain [(Kelement, "a"); (Kclass, "x"); (KpseudoElement, "after");
                 (Kattr, "href")] ∅
          = (inr tt, <["_attr" := "[href]"]> (<["_pseudoElement" := "::after"]>
                       (<["_class" := ".x"]> (<["_element" := "a"]> ∅)))))
    as Hchain by (vm_compute; reflexivity).
  split; [exact Hchain|].
  exact (proj1 stringify_groups_by_category _ _ Hchain).
Defined.

(** ** Errors *)

Lemma existsb_hasOwnProperty (this : object) (props : list string) (key : string) :
  key ∈ props → hasOwnProperty this key = true →
  existsb (hasOwnProperty this) props = true.
Proof.
  intros Hin Hown. apply existsb_exists. exists key.
  split; [by apply list_elem_of_In|done].
Qed.

(** A call that returns has written the property of its category. *)
Lemma call_return_own (k : methodKey) (v : string) (this this' : object) :
  call k v this = (inr tt, this') → hasOwnProperty this' (property k) = true.
Proof.
  intros Hcall. apply hasOwnProperty_true.
  destruct k; simpl call in Hcall; simpl property;
    rewrite ?element_eq, ?id_eq, ?attr_eq, ?class_eq, ?pseudoClass_eq,
      ?pseudoElement_eq in Hcall;
    repeat match type of Hcall with
    | context [if ?b then _ else _] => destruct b; try discriminate Hcall
    end;
    injection Hcall as <-; rewrite lookup_insert_eq; eauto.
Qed.

Lemma duplicate_throws (k : methodKey) (v : string) (this : object) :
  k ∈ [Kelement; Kid; KpseudoElement] →
  hasOwnProperty this (property k) = true →
  call k v this = (inl myError, this).
Proof.
  intros Hk. set_unfold in Hk. destruct Hk as [->|[->|[->|[]]]];
    simpl call; simpl property; intros Hown.
  - by rewrite element_eq, Hown.
  - by rewrite id_eq, Hown.
  - by rewrite pseudoElement_eq, Hown.
Qed.

(** C3.  On a builder whose element, id or pseudo-element is set, the same
    setter throws [myError] (DuplicateCategoryError), whether the property
    is there or was written by an earlier call of that setter; and
    [id('a')] twice on one builder throws it. *)
Theorem set_twice_throws_myError :
  (∀ k v this,
     k ∈ [Kelement; Kid; KpseudoElement] →
     hasOwnProperty this (property k) = true →
     call k v this = (inl myError, this))
  ∧ (∀ k v v' this this',
       k ∈ [Kelement; Kid; KpseudoElement] →
       call k v this = (inr tt, this') →
       call k v' this' = (inl myError, this'))
  ∧ fst ((b ← static Kid "a"; invoke b Kid "a") []) = inl myError.
Proof.
  split; [|split].
  - apply duplicate_throws.
  - intros k v v' this this' Hk Hcall.
    apply duplicate_throws; [done|]. by apply (call_return_own k v this).
  - vm_compute. reflexivity.
Qed.

Lemma set_twice_throws_myError_witness :
  Kid ∈ [Kelement; Kid; KpseudoElement]
  ∧ call Kid "a" ∅ = (inr tt, {["_id" := "#a"]})
  ∧ call Kid "b" {["_id" := "#a"]} = (inl myError, {["_id" := "#a"]}).
Proof.
  assert (Kid ∈ [Kelement; Kid; KpseudoElement]) as Hk by set_solver.
  assert (call Kid "a" ∅ = (inr tt, ({["_id" := "#a"]} : object))) as Hcall
    by (vm_compute; reflexivity).
  split; [exact Hk|split; [exact Hcall|]].
  exact (proj1 (proj2 set_twice_throws_myError) Kid "a" "b" ∅ _ Hk Hcall).
Defined.

(** C4 as stated fails: on the builder [element('div').id('main')]
    the id is populated, and [element('span')] throws [myError], not
    [myError2]. *)
Lemma element_after_element_id_throws_myError :
  chain [(Kelement, "div"); (Kid, "main")] ∅
    = (inr tt, <["_id" := "#main"]> (<["_element" := "div"]> ∅))
  ∧ hasOwnProperty (<["_id" := "#main"]> (<["_element" := "div"]> ∅)) "_id" = true
  ∧ call Kelement "span" (<["_id" := "#main"]> (<["_element" := "div"]> ∅))
    = (inl myError, <["_id" := "#main"]> (<["_element" := "div"]> ∅))
  ∧ fst (call Kelement "span" (<["_id" := "#main"]> (<["_element" := "div"]> ∅)))
    ≠ inl myError2.
Proof.
  repeat split; try (vm_compute; reflexivity).
  vm_compute. discriminate.
Qed.

(** C4, amended.  On a builder whose element is not set and on which any
    of id, class, attribute, pseudo-class or pseudo-element is populated,
    [element(token)] throws [myError2] (OutOfOrderError); when the element
    is set it throws [myError] (DuplicateCategoryError) instead; and
    [class('x')] then [element('div')] throws [myError2]. *)
Theorem element_out_of_order :
  (∀ v key this,
     hasOwnProperty this "_element" = false →
     key ∈ ["_id"; "_class"; "_attr"; "_pseudoClass"; "_pseudoElement"] →
     hasOwnProperty this key = true →
     call Kelement v this = (inl myError2, this))
  ∧ (∀ v this,
       hasOwnProperty this "_element" = true →
       call Kelement v this = (inl myError, this))
  ∧ fst ((b ← static Kclass "x"; invoke b Kelement "div") []) = inl myError2.
Proof.
  split; [|split].
  - intros v key this Hel Hin Hown. simpl call.
    by rewrite element_eq, Hel, (existsb_hasOwnProperty this _ key).
  - intros v this Hel. simpl call. by rewrite element_eq, Hel.
  - vm_compute. reflexivity.
Qed.

Lemma element_out_of_order_witness :
  hasOwnProperty {["_class" := ".x"]} "_element" = false
  ∧ "_class" ∈ ["_id"; "_class"; "_attr"; "_pseudoClass"; "_pseudoElement"]
  ∧ hasOwnProperty {["_class" := ".x"]} "_class" = true
  ∧ call Kelement "div" {["_class" := ".x"]} = (inl myError2, {["_class" := ".x"]}).
Proof.
  assert (hasOwnProperty {["_class" := ".x"]} "_element" = false) as Hel
    by (vm_compute; reflexivity).
  assert ("_class" ∈ ["_id"; "_class"; "_attr"; "_pseudoClass"; "_pseudoElement"])
    as Hin by set_solver.
  assert (hasOwnProperty {["_class" := ".x"]} "_class" = true) as Hown
    by (vm_compute; reflexivity).
  split; [exact Hel|split; [exact Hin|split; [exact Hown|]]].
  exact (proj1 element_out_of_order "div" "_class" _ Hel Hin Hown).
Defined.

(** *** [attr] and the pseudo-element *)

(** [attr] throws after a pseudo-class. *)
Lemma attr_after_pseudoClass (v : string) (this : object) :
  hasOwnProperty this "_pseudoClass" = true →
  call Kattr v this = (inl myError2, this).
Proof.
  intros Hown. simpl call. rewrite attr_eq.
  by rewrite (existsb_hasOwnProperty this _ "_pseudoClass") by (done || set_solver).
Qed.

(** No setter writes the property [_pseudo-element] that [attr] checks. *)
Lemma built_no_pseudo_element (calls : list (methodKey * string)) (this : object) :
  built calls this → hasOwnProperty this "_pseudo-element" = false.
Proof.
  induction 1 as [|calls this k v this' _ IH Hcall|calls this k v e this' _ IH Hcall].
  - reflexivity.
  - apply hasOwnProperty_false. apply hasOwnProperty_false in IH.
    destruct k; simpl call in Hcall;
      rewrite ?element_eq, ?id_eq, ?attr_eq, ?class_eq, ?pseudoClass_eq,
        ?pseudoElement_eq in Hcall;
      repeat match type of Hcall with
      | context [if ?b then _ else _] => destruct b; try discriminate Hcall
      end;
      injection Hcall as <-; by rewrite lookup_insert_ne.
  - by rewrite (call_throw k v e this this' Hcall).
Qed.

(** So on a builder [attr] returns whenever no pseudo-class is there,
    pseudo-element or not, and appends its [[token]]. *)
Lemma attr_returns (calls : list (methodKey * string)) (v : string) (this : object) :
  built calls this →
  hasOwnProperty this "_pseudoClass" = false →
  ∃ this', call Kattr v this = (inr tt, this')
    ∧ this' !! "_attr" = Some (or_empty (this !! "_attr") +:+ "[" +:+ v +:+ "]").
Proof.
  intros Hb Hpc. simpl call. rewrite attr_eq. simpl existsb.
  rewrite Hpc, (built_no_pseudo_element calls this Hb). simpl.
  eexists. split; [reflexivity|]. rewrite lookup_insert_eq. f_equal.
  unfold or_empty, truthy, interpolate.
  destruct (this !! "_attr") as [old|]; [|reflexivity].
  by case_bool_decide.
Qed.

(** C1, at [pseudoElement('after').attr('x')]: the pseudo-element is
    populated, and [attr] does not throw; it returns the builder with the
    attribute appended, which renders as ['[x]::after']. *)
Theorem attr_after_pseudoElement_returns :
  (b ← static KpseudoElement "after"; invoke b Kattr "x") []
    = (inr 0, [<["_attr" := "[x]"]> (<["_pseudoElement" := "::after"]> ∅)])
  ∧ stringify_of (b ← static KpseudoElement "after";
                  b ← invoke b Kattr "x";
                  mret (Builder b)) = inr "[x]::after".
Proof. split; vm_compute; reflexivity. Qed.

(** ** [combine] *)

(** C5.  [combine(left, token, right)] leaves the store, hence every
    builder, as it is and returns a node whose [stringify()] is
    [left.stringify() + ' ' + token + ' ' + right.stringify()]; and
    [combine(element('div').id('main'), '>', element('span')).stringify()]
    is ['div#main > span']. *)
Theorem combine_stringify :
  (∀ selector1 combinator selector2 σ,
     ∃ node,
       combine selector1 combinator selector2 σ = (inr node, σ)
       ∧ ∀ σ', render σ' node =
           render σ' selector1 +:+ " " +:+ combinator +:+ " " +:+ render σ' selector2)
  ∧ stringify_of (a ← static Kelement "div";
                  a ← invoke a Kid "main";
                  b ← static Kelement "span";
                  combine (Builder a) ">" (Builder b)) = inr "div#main > span".
Proof.
  split; [|vm_compute; reflexivity].
  intros selector1 combinator selector2 σ.
  exists (Combined selector1 combinator selector2). split; reflexivity.
Qed.

(** ** A call that throws *)

Lemma store_insert_same (σ : store) (this : nat) : <[this := σ !!! this]> σ = σ.
Proof.
  destruct (σ !! this) as [obj|] eqn:Hobj.
  - apply list_insert_id. rewrite Hobj. f_equal. symmetry.
    by apply list_lookup_total_correct.
  - apply list_insert_ge. by apply lookup_ge_None.
Qed.

(** C6.  A setter call that throws [myError] or [myError2] leaves every
    data property of the builder, and the whole store, as before the
    call. *)
Theorem throw_keeps_state :
  (∀ k v e this this', call k v this = (inl e, this') → this' = this)
  ∧ (∀ b k v e σ σ', invoke b k v σ = (inl e, σ') → σ' = σ).
Proof.
  split; [apply call_throw|].
  intros b k v e σ σ'. unfold invoke.
  destruct (call k v (σ !!! b)) as [[e'|[]] obj] eqn:Hcall; [|done].
  intros [= _ <-]. rewrite (call_throw k v e' _ obj Hcall).
  apply store_insert_same.
Qed.

Lemma throw_keeps_state_witness :
  call Kclass "x" {["_attr" := "[href]"]}
    = (inl myError2, snd (call Kclass "x" {["_attr" := "[href]"]}))
  ∧ snd (call Kclass "x" {["_attr" := "[href]"]}) = {["_attr" := "[href]"]}.
Proof.
  assert (call Kclass "x" {["_attr" := "[href]"]}
          = (inl myError2, snd (call Kclass "x" {["_attr" := "[href]"]})))
    as Hcall by (vm_compute; reflexivity).
  split; [exact Hcall|].
  exact (proj1 throw_keeps_state Kclass "x" myError2 _ _ Hcall).
Defined.

(** ** [Rectangle]: the area *)

Section Rectangle_area.
Context {number : Type}.
Variable times : number → number → number.
(** [nonneg x] reads [x >= 0]. *)
Variable nonneg : number → Prop.

(** C7.  For [width, height >= 0] the object [Rectangle(width, height)]
    has these two fields, and [getArea()] multiplies the fields as they
    are when it is called: [width * height] on the new object, and the
    product of the current values after [width] or [height] has been
    assigned. *)
Theorem Rectangle_getArea (w h : number) :
  nonneg w → nonneg h →
  width (Rectangle w h) = w
  ∧ height (Rectangle w h) = h
  ∧ getArea times (Rectangle w h) = times w h
  ∧ (∀ w', getArea times (set_width w' (Rectangle w h)) = times w' h)
  ∧ (∀ h', getArea times (set_height h' (Rectangle w h)) = times w h')
  ∧ (∀ w' h', getArea times (set_height h' (set_width w' (Rectangle w h)))
              = times w' h').
Proof. intros _ _. repeat split. Qed.
End Rectangle_area.

Lemma Rectangle_getArea_witness :
  (0 ≤ 10)%Z ∧ (0 ≤ 20)%Z
  ∧ getArea Z.mul (Rectangle 10%Z 20%Z) = 200%Z
  ∧ getArea Z.mul (set_width 3%Z (Rectangle 10%Z 20%Z)) = 60%Z.
Proof.
  assert (0 ≤ 10)%Z as Hw by lia. assert (0 ≤ 20)%Z as Hh by lia.
  destruct (Rectangle_getArea Z.mul (λ x, 0 ≤ x)%Z 10%Z 20%Z Hw Hh)
    as (_ & _ & Harea & Hwidth & _).
  split; [exact Hw|split; [exact Hh|split]].
  - exact Harea.
  - exact (Hwidth 3%Z).
Defined.

(** ** Which calls are accepted *)

(** X2.  A setter throws [myError] exactly when it is [element], [id] or
    [pseudoElement] and its own property is already on the object; the
    repeatable setters never throw it. *)
Theorem myError_iff (k : methodKey) (v : string) (this : object) :
  fst (call k v this) = inl myError
  ↔ repeatable k = false ∧ hasOwnProperty this (property k) = true.
Proof.
  destruct k; simpl call; simpl property; simpl repeatable;
    rewrite ?element_eq, ?id_eq, ?attr_eq, ?class_eq, ?pseudoClass_eq,
      ?pseudoElement_eq;
    repeat match goal with
    | |- context [if ?b then _ else _] => destruct b eqn:?
    end; simpl; split; (intros [? ?] || intros ?); (done || congruence).
Qed.

Lemma myError_iff_witness :
  repeatable KpseudoElement = false
  ∧ hasOwnProperty {["_pseudoElement" := "::after"]} (property KpseudoElement) = true
  ∧ fst (call KpseudoElement "before" {["_pseudoElement" := "::after"]}) = inl myError.
Proof.
  assert (repeatable KpseudoElement = false) as Hr by reflexivity.
  assert (hasOwnProperty {["_pseudoElement" := "::after"]} (property KpseudoElement)
          = true) as Hown by (vm_compute; reflexivity).
  split; [exact Hr|split; [exact Hown|]].
  exact (proj2 (myError_iff KpseudoElement "before" _) (conj Hr Hown)).
Defined.

Lemma fragments_nil_iff (k : methodKey) (calls : list (methodKey * string)) :
  fragments k calls = [] ↔ k ∉ calls.*1.
Proof.
  unfold fragments. induction calls as [|[k' v] calls IH]; simpl.
  - split; [set_solver|done].
  - rewrite not_elem_of_cons. destruct (decide (k' = k)) as [->|Hne].
    + rewrite filter_cons_True by done. split; [done|intros [? _]; done].
    + rewrite filter_cons_False by done. rewrite IH.
      split; [intros Hk; split; [congruence|exact Hk]|intros [_ Hk]; exact Hk].
Qed.

(** On a builder, the properties present are those of the categories
    called. *)
Lemma built_owns (calls : list (methodKey * string)) (this : object) (k : methodKey) :
  built calls this →
  hasOwnProperty this (property k) = bool_decide (k ∈ calls.*1).
Proof.
  intros Hb. pose proof (built_holds calls this Hb k) as Hk.
  case_bool_decide as Hin.
  - apply hasOwnProperty_true. rewrite Hk.
    destruct (fragments k calls) eqn:Hf; [|by eexists].
    by apply fragments_nil_iff in Hf.
  - apply hasOwnProperty_false. rewrite Hk. apply written_None.
    by apply fragments_nil_iff.
Qed.

Lemma all_keys (k : methodKey) : In k rank_order.
Proof. destruct k; simpl; tauto. Qed.

Lemma forallb_seen (seen : list methodKey) (f : methodKey → bool) :
  forallb f seen
  = forallb (λ k', implb (bool_decide (k' ∈ seen)) (f k')) rank_order.
Proof.
  apply eq_true_iff_eq. rewrite !forallb_forall. split.
  - intros Hall k' _. case_bool_decide as Hin; [|done].
    simpl. apply Hall. by apply list_elem_of_In.
  - intros Hall k' Hin. specialize (Hall k' (all_keys k')).
    rewrite bool_decide_eq_true_2 in Hall by (by apply list_elem_of_In).
    exact Hall.
Qed.

Lemma call_outcome (calls : list (methodKey * string)) (this : object)
    (k : methodKey) (v : string) :
  built calls this → fst (call k v this) = verdict calls.*1 k.
Proof.
  intros Hb. unfold verdict. rewrite forallb_seen.
  pose proof (built_no_pseudo_element calls this Hb) as Hdead.
  pose proof (built_owns calls this Kelement Hb) as H1.
  pose proof (built_owns calls this Kid Hb) as H2.
  pose proof (built_owns calls this Kclass Hb) as H3.
  pose proof (built_owns calls this Kattr Hb) as H4.
  pose proof (built_owns calls this KpseudoClass Hb) as H5.
  pose proof (built_owns calls this KpseudoElement Hb) as H6.
  simpl property in *.
  destruct k; simpl call;
    rewrite ?element_eq, ?id_eq, ?attr_eq, ?class_eq, ?pseudoClass_eq,
      ?pseudoElement_eq;
    simpl existsb; rewrite ?Hdead, ?H1, ?H2, ?H3, ?H4, ?H5, ?H6;
    unfold rank_order; simpl forallb; simpl repeatable;
    destruct (bool_decide (Kelement ∈ calls.*1)),
      (bool_decide (Kid ∈ calls.*1)), (bool_decide (Kclass ∈ calls.*1)),
      (bool_decide (Kattr ∈ calls.*1)), (bool_decide (KpseudoClass ∈ calls.*1)),
      (bool_decide (KpseudoElement ∈ calls.*1)); reflexivity.
Qed.

(** X3.  On a builder on which the categories [calls.*1] have been set,
    a call of [k] throws [myError] when [k] is [element], [id] or
    [pseudoElement] and already set; otherwise it returns when [k] may
    follow every category set, and throws [myError2] when it may not. *)
Theorem call_verdict (calls : list (methodKey * string)) (this : object)
    (k : methodKey) (v : string) :
  built calls this → fst (call k v this) = verdict calls.*1 k.
Proof. apply call_outcome. Qed.

Lemma call_verdict_witness :
  built [(Kelement, "a"); (Kattr, "href")]
    (<["_attr" := "[href]"]> (<["_element" := "a"]> ∅))
  ∧ fst (call Kclass "x" (<["_attr" := "[href]"]> (<["_element" := "a"]> ∅)))
    = inl myError2.
Proof.
  assert (built [(Kelement, "a"); (Kattr, "href")]
            (<["_attr" := "[href]"]> (<["_element" := "a"]> ∅))) as Hb.
  { apply (chain_built _ [] ∅); [apply built_new|]. vm_compute. reflexivity. }
  split; [exact Hb|].
  exact (call_verdict _ _ Kclass "x" Hb).
Defined.

Lemma forallb_follow (seen : list methodKey) (k : methodKey) :
  forallb (λ k', may_follow k' k) seen = true
  ↔ ∀ k', k' ∈ seen → may_follow k' k = true.
Proof.
  rewrite forallb_forall. split; intros Hall k' Hin; apply Hall;
    by apply list_elem_of_In.
Qed.

Lemma may_follow_self (k : methodKey) : repeatable k = false → may_follow k k = false.
Proof. by destruct k. Qed.

Lemma verdict_inr (seen : list methodKey) (k : methodKey) :
  verdict seen k = inr tt ↔ forallb (λ k', may_follow k' k) seen = true.
Proof.
  unfold verdict.
  destruct (negb (repeatable k) && bool_decide (k ∈ seen)) eqn:Hdup.
  - apply andb_true_iff in Hdup as [Hr Hin].
    apply negb_true_iff in Hr. apply bool_decide_eq_true in Hin.
    split; [done|]. rewrite forallb_follow. intros Hall.
    specialize (Hall k Hin). by rewrite may_follow_self in Hall.
  - by destruct (forallb _ seen).
Qed.

Lemma chain_in_order (calls done : list (methodKey * string))
    (seen : list methodKey) (this : object) :
  built done this →
  (∀ k', k' ∈ seen ↔ k' ∈ done.*1) →
  (∃ this', chain calls this = (inr tt, this')) ↔ in_order seen calls.*1 = true.
Proof.
  revert done seen this.
  induction calls as [|[k v] calls IH]; intros done seen this Hb Hseen.
  - simpl. split; [done|]. intros _. by exists this.
  - rewrite chain_cons. simpl in_order. rewrite andb_true_iff.
    pose proof (call_outcome done this k v Hb) as Hv.
    assert (forallb (λ k', may_follow k' k) seen = true
            ↔ verdict done.*1 k = inr tt) as Hfollow.
    { rewrite verdict_inr, !forallb_follow. by setoid_rewrite Hseen. }
    destruct (call k v this) as [[e|[]] this1] eqn:Hcall; simpl in Hv.
    + split; [by intros [? ?]|]. intros [Hk _].
      apply Hfollow in Hk. congruence.
    + rewrite <- (IH (done ++ [(k, v)]) (k :: seen) this1).
      * split; [intros Hrest; split; [by apply Hfollow|exact Hrest]|by intros [_ ?]].
      * by apply (built_return done this).
      * intros k'. rewrite fmap_app, elem_of_app, elem_of_cons, Hseen.
        simpl. rewrite list_elem_of_singleton. tauto.
Qed.

(** X4.  A chain of calls on a new builder returns exactly when each call
    may follow every call before it: its category comes later in the
    order element, id, class, attribute, pseudo-class, pseudo-element, or
    repeats a class, attribute or pseudo-class, or it is an attribute
    after a pseudo-element. *)
Theorem chain_returns_iff (calls : list (methodKey * string)) :
  (∃ this, chain calls ∅ = (inr tt, this)) ↔ in_order [] calls.*1 = true.
Proof. apply (chain_in_order calls [] [] ∅); [apply built_new|done]. Qed.

Lemma chain_returns_iff_witness :
  in_order [] [(Kid, "main"); (Kclass, "a"); (KpseudoElement, "after"); (Kattr, "x")].*1
    = true
  ∧ ∃ this,
      chain [(Kid, "main"); (Kclass, "a"); (KpseudoElement, "after"); (Kattr, "x")] ∅
      = (inr tt, this).
Proof.
  assert (in_order []
            [(Kid, "main"); (Kclass, "a"); (KpseudoElement, "after"); (Kattr, "x")].*1
          = true) as Hin by (vm_compute; reflexivity).
  split; [exact Hin|].
  exact (proj2 (chain_returns_iff _) Hin).
Defined.

(** ** The rendering in the order of the calls *)

Lemma grouped_eq (calls : list (methodKey * string)) :
  grouped calls =
    join (fragments Kelement calls) +:+ join (fragments Kid calls)
    +:+ join (fragments Kclass calls) +:+ join (fragments Kattr calls)
    +:+ join (fragments KpseudoClass calls)
    +:+ join (fragments KpseudoElement calls).
Proof.
  unfold grouped, rank_order. simpl fmap.
  by rewrite !join_cons, join_nil, append_empty_r.
Qed.

(** When a call is accepted, no later category has been set, but for the
    pseudo-element before an attribute. *)
Lemma later_empty (calls : list (methodKey * string)) (this this' : object)
    (k k' : methodKey) (v : string) :
  built calls this →
  call k v this = (inr tt, this') →
  (k = Kattr → hasOwnProperty this "_pseudoElement" = false) →
  rank k < rank k' →
  fragments k' calls = [].
Proof.
  intros Hb Hcall Hpe Hrank. apply fragments_nil_iff. intros Hin.
  pose proof (call_outcome calls this k v Hb) as Hv.
  rewrite Hcall in Hv. simpl in Hv. symmetry in Hv.
  apply verdict_inr in Hv. rewrite forallb_follow in Hv.
  specialize (Hv k' Hin).
  pose proof (built_owns calls this KpseudoElement Hb) as Hown.
  simpl property in Hown.
  destruct k, k'; simpl in Hrank; try lia; try discriminate Hv.
  rewrite Hpe in Hown by done. symmetry in Hown.
  by apply bool_decide_eq_false in Hown.
Qed.

Lemma call_appends (calls : list (methodKey * string)) (this this' : object)
    (k : methodKey) (v : string) :
  built calls this →
  call k v this = (inr tt, this') →
  (k = Kattr → hasOwnProperty this "_pseudoElement" = false) →
  stringify this' = stringify this +:+ fragment k v.
Proof.
  intros Hb Hcall Hpe.
  rewrite (stringify_holds calls this) by (by apply built_holds).
  rewrite (stringify_holds (calls ++ [(k, v)]) this')
    by (by apply built_holds, (built_return calls this)).
  rewrite !grouped_eq.
  assert (∀ k', rank k < rank k' → fragments k' calls = []) as Hlater
    by (intros k'; by apply (later_empty calls this this' k k' v)).
  destruct k;
    rewrite fragments_snoc_eq, !fragments_snoc_ne by done;
    rewrite ?(Hlater Kid), ?(Hlater Kclass), ?(Hlater Kattr),
      ?(Hlater KpseudoClass), ?(Hlater KpseudoElement) by (simpl; lia);
    rewrite join_snoc, ?join_nil, ?append_empty_l, ?append_empty_r,
      ?append_assoc, ?append_empty_l, ?append_empty_r;
    reflexivity.
Qed.

(** X5.  An accepted call appends its fragment to what [stringify()]
    returned before; the one exception is an attribute accepted on a
    builder that has a pseudo-element. *)
Theorem stringify_appends (calls : list (methodKey * string)) (this this' : object)
    (k : methodKey) (v : string) :
  built calls this →
  call k v this = (inr tt, this') →
  (k = Kattr → hasOwnProperty this "_pseudoElement" = false) →
  stringify this' = stringify this +:+ fragment k v.
Proof. apply call_appends. Qed.

Lemma stringify_appends_witness :
  built [(Kelement, "a"); (Kattr, "href")]
    (<["_attr" := "[href]"]> (<["_element" := "a"]> ∅))
  ∧ call KpseudoClass "focus" (<["_attr" := "[href]"]> (<["_element" := "a"]> ∅))
    = (inr tt, <["_pseudoClass" := ":focus"]>
                 (<["_attr" := "[href]"]> (<["_element" := "a"]> ∅)))
  ∧ stringify (<["_pseudoClass" := ":focus"]>
                 (<["_attr" := "[href]"]> (<["_element" := "a"]> ∅)))
    = "a[href]" +:+ ":focus".
Proof.
  assert (built [(Kelement, "a"); (Kattr, "href")]
            (<["_attr" := "[href]"]> (<["_element" := "a"]> ∅))) as Hb.
  { apply (chain_built _ [] ∅); [apply built_new|]. vm_compute. reflexivity. }
  assert (call KpseudoClass "focus" (<["_attr" := "[href]"]> (<["_element" := "a"]> ∅))
          = (inr tt, <["_pseudoClass" := ":focus"]>
                       (<["_attr" := "[href]"]> (<["_element" := "a"]> ∅))))
    as Hcall by (vm_compute; reflexivity).
  split; [exact Hb|split; [exact Hcall|]].
  apply (stringify_appends _ _ _ KpseudoClass "focus" Hb Hcall). discriminate.
Defined.

Lemma chain_call_order (calls done : list (methodKey * string)) (this this' : object) :
  built done this →
  chain calls this = (inr tt, this') →
  (KpseudoElement ∈ done.*1 → Kattr ∉ calls.*1) →
  attr_after_pseudoElement calls.*1 = false →
  stringify this' = stringify this +:+ join ((λ c, fragment c.1 c.2) <$> calls).
Proof.
  revert done this.
  induction calls as [|[k v] calls IH]; intros done this Hb Hchain Hdone Hafter.
  - injection Hchain as <-. rewrite fmap_nil, join_nil. by rewrite append_empty_r.
  - rewrite chain_cons in Hchain.
    destruct (call k v this) as [[e|[]] this1] eqn:Hcall; [done|].
    simpl in Hafter. apply orb_false_iff in Hafter as [Hhere Hafter].
    rewrite fmap_cons, join_cons. simpl fst; simpl snd.
    rewrite (IH (done ++ [(k, v)]) this1); [| |done| |done].
    + rewrite <- append_assoc. f_equal.
      apply (call_appends done this this1 k v); [done..|].
      intros ->. change "_pseudoElement" with (property KpseudoElement).
      rewrite (built_owns done this KpseudoElement Hb).
      apply bool_decide_eq_false. intros Hin. apply (Hdone Hin).
      rewrite fmap_cons. apply list_elem_of_here.
    + by apply (built_return done this).
    + rewrite fmap_app, elem_of_app. simpl. rewrite list_elem_of_singleton.
      intros [Hin|Hk].
      * intros Hattr. apply (Hdone Hin). rewrite fmap_cons.
        by apply list_elem_of_further.
      * subst k. rewrite bool_decide_eq_true_2 in Hhere by done. simpl in Hhere.
        by apply bool_decide_eq_false in Hhere.
Qed.

(** X6.  When a chain of calls on a new builder returns and no [attr]
    call comes after a [pseudoElement] call, [stringify()] is the
    concatenation of the fragments in the order of the calls. *)
Theorem stringify_call_order (calls : list (methodKey * string)) (this : object) :
  chain calls ∅ = (inr tt, this) →
  attr_after_pseudoElement calls.*1 = false →
  stringify this = join ((λ c, fragment c.1 c.2) <$> calls).
Proof.
  intros Hchain Hafter.
  rewrite (chain_call_order calls [] ∅ this); [done|apply built_new|done| |done].
  set_solver.
Qed.

Lemma stringify_call_order_witness :
  chain [(Kelement, "a"); (Kattr, "href"); (Kattr, "target"); (KpseudoClass, "focus")] ∅
    = (inr tt, <["_pseudoClass" := ":focus"]> (<["_attr" := "[href][target]"]>
                 (<["_element" := "a"]> ∅)))
  ∧ attr_after_pseudoElement
      [(Kelement, "a"); (Kattr, "href"); (Kattr, "target"); (KpseudoClass, "focus")].*1
    = false
  ∧ stringify (<["_pseudoClass" := ":focus"]> (<["_attr" := "[href][target]"]>
                 (<["_element" := "a"]> ∅)))
    = "a[href][target]:focus".
Proof.
  assert (chain [(Kelement, "a"); (Kattr, "href"); (Kattr, "target");
                 (KpseudoClass, "focus")] ∅
          = (inr tt, <["_pseudoClass" := ":focus"]> (<["_attr" := "[href][target]"]>
                       (<["_element" := "a"]> ∅)))) as Hchain
    by (vm_compute; reflexivity).
  assert (attr_after_pseudoElement
            [(Kelement, "a"); (Kattr, "href"); (Kattr, "target");
             (KpseudoClass, "focus")].*1 = false) as Hafter
    by (vm_compute; reflexivity).
  split; [exact Hchain|split; [exact Hafter|]].
  exact (stringify_call_order _ _ Hchain Hafter).
Defined.

Lemma below_may_follow (k' k : methodKey) : below k' k = true → may_follow k' k = true.
Proof. unfold may_follow. by intros ->. Qed.

Lemma below_trans (k1 k2 k3 : methodKey) :
  below k1 k2 = true → below k2 k3 = true → below k1 k3 = true.
Proof. by destruct k1, k2, k3. Qed.

Lemma ascending_cons (k : methodKey) (keys : list methodKey) :
  ascending (k :: keys) = true →
  ascending keys = true ∧ (∀ k1, head keys = Some k1 → below k k1 = true).
Proof.
  destruct keys as [|k1 keys]; [done|].
  intros [Hb Hrest]%andb_true_iff. split; [done|]. by intros ? [= <-].
Qed.

Lemma ascending_in_order (keys seen : list methodKey) :
  ascending keys = true →
  (∀ k' k, k' ∈ seen → head keys = Some k → below k' k = true) →
  in_order seen keys = true.
Proof.
  revert seen. induction keys as [|k keys IH]; intros seen Hasc Hseen; [done|].
  apply ascending_cons in Hasc as [Hrest Hnext].
  simpl. apply andb_true_iff. split.
  - apply forallb_follow. intros k' Hin. by apply below_may_follow, Hseen.
  - apply IH; [done|]. intros k' k1 Hin Hk1. apply elem_of_cons in Hin as [->|Hin].
    + by apply Hnext.
    + apply (below_trans k' k k1); [by apply Hseen|by apply Hnext].
Qed.

Lemma ascending_no_attr_after (keys : list methodKey) :
  ascending keys = true → attr_after_pseudoElement keys = false.
Proof.
  induction keys as [|k keys IH]; [done|]. intros Hasc.
  apply ascending_cons in Hasc as [Hrest Hnext]. simpl.
  rewrite (IH Hrest), orb_false_r. case_bool_decide as Hk; [|done].
  subst k. destruct keys as [|k1 keys]; [done|].
  specialize (Hnext k1 eq_refl). by destruct k1.
Qed.

(** X7.  A chain on a new builder in which every call is of a later
    category than the call before it, or repeats a class, attribute or
    pseudo-class, returns, and [stringify()] is then the concatenation of
    the fragments in the order of the calls. *)
Theorem ascending_accepted (calls : list (methodKey * string)) :
  ascending calls.*1 = true →
  ∃ this, chain calls ∅ = (inr tt, this)
    ∧ stringify this = join ((λ c, fragment c.1 c.2) <$> calls).
Proof.
  intros Hasc.
  destruct (proj2 (chain_in_order calls [] [] ∅ built_new (λ k', reflexivity _)))
    as [this Hchain].
  { apply ascending_in_order; [done|]. intros k' k Hin. by apply elem_of_nil in Hin. }
  exists this. split; [done|].
  rewrite (chain_call_order calls [] ∅ this); [done|apply built_new|done| |].
  - set_solver.
  - by apply ascending_no_attr_after.
Qed.

Lemma ascending_accepted_witness :
  ascending [(Kelement, "div"); (Kid, "main"); (Kclass, "container");
             (Kclass, "draggable")].*1 = true
  ∧ ∃ this,
      chain [(Kelement, "div"); (Kid, "main"); (Kclass, "container");
             (Kclass, "draggable")] ∅ = (inr tt, this)
      ∧ stringify this = "div#main.container.draggable".
Proof.
  assert (ascending [(Kelement, "div"); (Kid, "main"); (Kclass, "container");
                     (Kclass, "draggable")].*1 = true) as Hasc
    by (vm_compute; reflexivity).
  split; [exact Hasc|].
  destruct (ascending_accepted _ Hasc) as [this [Hchain Hs]].
  exists this. split; [exact Hchain|]. rewrite Hs. vm_compute. reflexivity.
Defined.

(** ** Tokens play no part in the checks *)

Lemma hasOwnProperty_dom (this that : object) (key : string) :
  dom this = dom that → hasOwnProperty this key = hasOwnProperty that key.
Proof.
  intros Hdom. unfold hasOwnProperty. apply bool_decide_ext.
  by rewrite <- !elem_of_dom, Hdom.
Qed.

Lemma call_dom (k : methodKey) (v v' : string) (this that : object) :
  dom this = dom that →
  fst (call k v this) = fst (call k v' that)
  ∧ dom (snd (call k v this)) = dom (snd (call k v' that)).
Proof.
  intros Hdom. destruct k; simpl call;
    rewrite ?element_eq, ?id_eq, ?attr_eq, ?class_eq, ?pseudoClass_eq,
      ?pseudoElement_eq;
    simpl existsb; rewrite !(hasOwnProperty_dom this that) by done;
    repeat match goal with
    | |- context [hasOwnProperty ?o ?key] => destruct (hasOwnProperty o key)
    end; simpl; (split; [done|]); rewrite ?dom_insert_L, ?Hdom; done.
Qed.

Lemma chain_dom (calls calls' : list (methodKey * string)) (this that : object) :
  calls.*1 = calls'.*1 → dom this = dom that →
  fst (chain calls this) = fst (chain calls' that).
Proof.
  revert calls' this that.
  induction calls as [|[k v] calls IH]; intros [|[k' v'] calls'] this that;
    try done.
  intros [= <- Hkeys] Hdom. rewrite !chain_cons.
  destruct (call_dom k v v' this that Hdom) as [Hfst Hsnd].
  destruct (call k v this) as [[e|[]] this1], (call k v' that) as [[e'|[]] that1];
    simpl in Hfst, Hsnd; try done.
  by apply IH.
Qed.

(** X10.  Whether a chain of calls on a new builder returns, and which
    error it throws when it does not, depends on the categories of the
    calls alone: two chains that call the same setters in the same order,
    with whatever tokens, have the same outcome. *)
Theorem outcome_ignores_tokens (calls calls' : list (methodKey * string)) :
  calls.*1 = calls'.*1 → fst (chain calls ∅) = fst (chain calls' ∅).
Proof. intros Hkeys. by apply chain_dom. Qed.

Lemma outcome_ignores_tokens_witness :
  [(Kelement, "div"); (Kelement, "span")].*1 = [(Kelement, ""); (Kelement, "")].*1
  ∧ fst (chain [(Kelement, ""); (Kelement, "")] ∅) = inl myError.
Proof.
  assert ([(Kelement, "div"); (Kelement, "span")].*1
          = [(Kelement, ""); (Kelement, "")].*1) as Hkeys by reflexivity.
  split; [exact Hkeys|].
  rewrite <- (outcome_ignores_tokens _ _ Hkeys). vm_compute. reflexivity.
Defined.

(** ** Builders and selectors in the store *)

Lemma call_new (k : methodKey) (v : string) :
  call k v ∅ = (inr tt, {[property k := fragment k v]}).
Proof. destruct k; reflexivity. Qed.

Lemma stringify_singleton (k : methodKey) (v : string) :
  stringify {[property k := fragment k v]} = fragment k v.
Proof.
  rewrite (stringify_holds [(k, v)]).
  - rewrite grouped_eq. destruct k; vm_compute fragments;
      rewrite ?join_singleton, ?join_nil, ?append_empty_l, ?append_empty_r;
      reflexivity.
  - apply built_holds, (built_return [] ∅ k v); [apply built_new|apply call_new].
Qed.

(** The rendering of a selector reads the builders it is made of and
    nothing else. *)
Lemma render_ext (σ σ' : store) (s : selector) :
  (∀ b, b ∈ builders s → σ' !!! b = σ !!! b) → render σ' s = render σ s.
Proof.
  induction s as [b|s1 IH1 c s2 IH2]; simpl; intros Hsame.
  - rewrite Hsame; [done|]. apply list_elem_of_here.
  - rewrite IH1, IH2; [done|..]; intros b Hb; apply Hsame, elem_of_app; auto.
Qed.

(** X1.  A static entry point never throws: it adds one builder to the
    store, holding the fragment of the call and nothing else, and returns
    a reference to it; every selector made of the builders that were
    there renders as before. *)
Theorem static_fresh (k : methodKey) (v : string) (σ : store) :
  static k v σ = (inr (length σ), σ ++ [{[property k := fragment k v]}])
  ∧ render (σ ++ [{[property k := fragment k v]}]) (Builder (length σ))
    = fragment k v
  ∧ ∀ s, (∀ b, b ∈ builders s → b < length σ) →
      render (σ ++ [{[property k := fragment k v]}]) s = render σ s.
Proof.
  split; [|split].
  - unfold static, new_cssSelectorBuilder, invoke, mbind, P_bind.
    rewrite list_lookup_total_middle by done. rewrite call_new.
    rewrite insert_app_r_alt by done. by rewrite Nat.sub_diag.
  - simpl. rewrite list_lookup_total_middle by done. apply stringify_singleton.
  - intros s Hold. apply render_ext. intros b Hb.
    apply lookup_total_app_l. by apply Hold.
Qed.

Lemma static_fresh_witness :
  (∀ b, b ∈ builders (Builder 0) → b < length [({["_id" := "#main"]} : object)])
  ∧ render ([{["_id" := "#main"]}] ++ [{[property Kclass := fragment Kclass "a"]}])
      (Builder 0) = "#main".
Proof.
  assert (∀ b, b ∈ builders (Builder 0) → b < length [({["_id" := "#main"]} : object)])
    as Hold.
  { intros b Hb. apply list_elem_of_singleton in Hb. subst b. simpl. lia. }
  split; [exact Hold|].
  exact (proj2 (proj2 (static_fresh Kclass "a" [{["_id" := "#main"]}])) _ Hold).
Defined.

(** X9.  A setter called on one builder, whether it returns or throws,
    keeps the number of builders and leaves every selector that is not
    made of that builder rendering as before. *)
Theorem invoke_frame (b : nat) (k : methodKey) (v : string) (σ σ' : store)
    (r : Error + nat) (s : selector) :
  invoke b k v σ = (r, σ') →
  b ∉ builders s →
  length σ' = length σ ∧ render σ' s = render σ s.
Proof.
  unfold invoke. intros Hinvoke Hb.
  assert (∃ obj, σ' = <[b := obj]> σ) as [obj ->].
  { destruct (call k v (σ !!! b)) as [[e|[]] obj]; injection Hinvoke as _ <-; eauto. }
  split; [apply length_insert|].
  apply render_ext. intros b' Hb'. apply list_lookup_total_insert_ne.
  by intros ->.
Qed.

Lemma invoke_frame_witness :
  invoke 0 Kclass "x" [{["_id" := "#a"]}; {["_element" := "td"]}]
    = (inr 0, [(<["_class" := ".x"]> {["_id" := "#a"]}); {["_element" := "td"]}])
  ∧ (0 ∉ builders (Builder 1))
  ∧ render [(<["_class" := ".x"]> {["_id" := "#a"]}); {["_element" := "td"]}] (Builder 1)
    = render [{["_id" := "#a"]}; {["_element" := "td"]}] (Builder 1).
Proof.
  assert (invoke 0 Kclass "x" [{["_id" := "#a"]}; {["_element" := "td"]}]
          = (inr 0, [(<["_class" := ".x"]> {["_id" := "#a"]}); {["_element" := "td"]}]))
    as Hinvoke by (vm_compute; reflexivity).
  assert (0 ∉ builders (Builder 1)) as Hb.
  { intros Hin. apply list_elem_of_singleton in Hin. discriminate Hin. }
  split; [exact Hinvoke|split; [exact Hb|]].
  exact (proj2 (invoke_frame 0 Kclass "x" _ _ _ (Builder 1) Hinvoke Hb)).
Defined.

(** X8.  Nesting [combine] to the left or to the right makes no
    difference to the text: [combine(combine(a, c1, b), c2, d)] and
    [combine(a, c1, combine(b, c2, d))] render alike. *)
Theorem render_assoc (σ : store) (a b d : selector) (c1 c2 : string) :
  render σ (Combined (Combined a c1 b) c2 d)
  = render σ (Combined a c1 (Combined b c2 d)).
Proof. simpl. by rewrite !append_assoc. Qed.

(** ** What the checks let through *)

Lemma in_order_ascending (keys seen : list methodKey) :
  in_order seen keys = true →
  attr_after_pseudoElement keys = false →
  ascending keys = true.
Proof.
  revert seen. induction keys as [|k keys IH]; intros seen Hin Hafter; [done|].
  simpl in Hin, Hafter.
  apply andb_true_iff in Hin as [_ Hrest].
  apply orb_false_iff in Hafter as [Hhere Hafter].
  pose proof (IH (k :: seen) Hrest Hafter) as Hasc.
  destruct keys as [|k1 keys]; [done|].
  change (below k k1 && ascending (k1 :: keys) = true).
  rewrite Hasc, andb_true_r.
  simpl in Hrest. apply andb_true_iff in Hrest as [Hfollow _].
  apply andb_true_iff in Hfollow as [Hfollow _].
  unfold may_follow in Hfollow. apply orb_true_iff in Hfollow as [Hbelow|Hpe]; [done|].
  apply andb_true_iff in Hpe as [Hk Hk1].
  apply bool_decide_eq_true in Hk, Hk1. subst k k1.
  rewrite bool_decide_eq_true_2, bool_decide_eq_true_2 in Hhere;
    [done|apply list_elem_of_here|done].
Qed.

(** X11.  The one departure from the order is the attribute after a
    pseudo-element: in a chain on a new builder that returns and has no
    [attr] call after a [pseudoElement] call, every call is of a later
    category than the call before it, or repeats a class, attribute or
    pseudo-class. *)
Theorem returns_ascending (calls : list (methodKey * string)) (this : object) :
  chain calls ∅ = (inr tt, this) →
  attr_after_pseudoElement calls.*1 = false →
  ascending calls.*1 = true.
Proof.
  intros Hchain Hafter. apply (in_order_ascending _ []); [|done].
  apply (chain_in_order calls [] [] ∅); [apply built_new|done|by exists this].
Qed.

Lemma returns_ascending_witness :
  chain [(Kelement, "tr"); (KpseudoClass, "nth-of-type(even)")] ∅
    = (inr tt, <["_pseudoClass" := ":nth-of-type(even)"]> (<["_element" := "tr"]> ∅))
  ∧ attr_after_pseudoElement
      [(Kelement, "tr"); (KpseudoClass, "nth-of-type(even)")].*1 = false
  ∧ ascending [(Kelement, "tr"); (KpseudoClass, "nth-of-type(even)")].*1 = true.
Proof.
  assert (chain [(Kelement, "tr"); (KpseudoClass, "nth-of-type(even)")] ∅
          = (inr tt, <["_pseudoClass" := ":nth-of-type(even)"]>
                       (<["_element" := "tr"]> ∅))) as Hchain
    by (vm_compute; reflexivity).
  assert (attr_after_pseudoElement
            [(Kelement, "tr"); (KpseudoClass, "nth-of-type(even)")].*1 = false)
    as Hafter by (vm_compute; reflexivity).
  split; [exact Hchain|split; [exact Hafter|]].
  exact (returns_ascending _ _ Hchain Hafter).
Defined.
